(** * SPIRV-Cross: the reflection core declared in [spirv_cross.hpp]

    A shallow embedding of the inline members of [class Compiler]: the word
    stream reader [stream], the ID table accessors [set], [get] and
    [maybe_get], the fallback names and the three branch-target classifiers
    [is_continue], [is_break] and [is_conditional].

    Unsigned 32-bit quantities (IDs, words, offsets) are binary naturals [N];
    a [std::vector] is a [list] read through [vector_at], which throws like
    [std::vector::at]; a [std::unordered_set<uint32_t>] is a [gset N]; a C++
    exception is the [Throw] branch of [result]. *)

From Stdlib Require Import NArith DecimalString DecimalN Lia.
From stdpp Require Import base option list gmap sets strings.

Local Open Scope N_scope.

(** ** Exceptions and results *)

(** The exceptions the header can raise: [std::out_of_range] comes from
    [std::vector::at], [CompilerError] carries its message.  [TypeMismatch]
    is the error kind the specification gives to a slot read at a kind it
    does not hold. *)
Inductive exn : Type :=
  | out_of_range
  | CompilerError (what : string)
  | TypeMismatch.

Inductive result (A : Type) : Type :=
  | OK (a : A)
  | Throw (e : exn).
Arguments OK {A} a.
Arguments Throw {A} e.

#[global] Instance result_ret : MRet result := fun _ a => OK a.
#[global] Instance result_bind : MBind result := fun _ _ f r =>
  match r with
  | OK a => f a
  | Throw e => Throw e
  end.

Definition succeeds {A} (r : result A) : Prop := ∃ a, r = OK a.
Definition throws {A} (r : result A) : Prop := ∃ e, r = Throw e.

(** [std::vector::at]: the element, or [std::out_of_range] past the end. *)
Definition vector_at {A} (v : list A) (i : N) : result A :=
  match v !! N.to_nat i with
  | Some x => OK x
  | None => Throw out_of_range
  end.

(** [std::vector::size], as a [size_t]. *)
Definition vector_size {A} (v : list A) : N := N.of_nat (length v).

(** Unsigned 32-bit arithmetic wraps around. *)
Definition uint32_wrap (n : N) : N := n mod 2 ^ 32.

(** ** Data model *)

(** Modelled from the spec: the [Instruction] record of [spirv_common.hpp]
    (opcode, word-offset into the stream, word-length), which the header
    only uses.  Offset and length are unsigned 32-bit words, so that their
    sum is formed in 32-bit arithmetic. *)
Module Instruction.
Record t : Type := mk { op : N; offset : N; length : N }.
End Instruction.

(** Modelled from the spec: the kinds of payload an ID slot can hold (the
    classes [T] that [set<T>], [get<T>] and [maybe_get<T>] are instantiated
    at), declared in [spirv_common.hpp]. *)
Inductive Kind : Type :=
  | SPIRType
  | SPIRVariable
  | SPIRConstant
  | SPIRFunction
  | SPIRBlock
  | SPIRUndef.

#[global] Instance Kind_eq_dec : EqDecision Kind.
Proof. solve_decision. Defined.

(** Modelled from the spec: the tag of a slot, [TypeNone] for a slot that
    was never bound; [type_of T] is the constant [T::type]. *)
Inductive Types : Type :=
  | TypeNone
  | TypeType
  | TypeVariable
  | TypeConstant
  | TypeFunction
  | TypeBlock
  | TypeUndef.

#[global] Instance Types_eq_dec : EqDecision Types.
Proof. solve_decision. Defined.

Definition type_of (T : Kind) : Types :=
  match T with
  | SPIRType => TypeType
  | SPIRVariable => TypeVariable
  | SPIRConstant => TypeConstant
  | SPIRFunction => TypeFunction
  | SPIRBlock => TypeBlock
  | SPIRUndef => TypeUndef
  end.

Section Store.

(** What a payload carries besides its own ID: the constructor arguments
    [P &&... args] of [set], which the header forwards untouched. *)
Context {Body : Type}.

(** Modelled from the spec: the common base of the payloads; [self] is the
    ID the payload is bound to. *)
Record IVariant : Type := mkIVariant { self : N; body : Body }.

Definition with_self (id : N) (p : IVariant) : IVariant :=
  {| self := id; body := body p |}.

(** Modelled from the spec: [Variant] of [spirv_common.hpp], one slot of the
    ID table: a tagged union over the kinds, or nothing yet (forward
    references create the slot empty and bind it later). *)
Inductive Variant : Type :=
  | Empty
  | Holds (T : Kind) (p : IVariant).

(** Modelled from the spec: [Variant::get_type]. *)
Definition get_type (v : Variant) : Types :=
  match v with
  | Empty => TypeNone
  | Holds T _ => type_of T
  end.

(** Modelled from the spec: [variant_get<T>], "returns the bound payload or
    fails if absent/wrong-kind". *)
Definition variant_get (T : Kind) (v : Variant) : result IVariant :=
  match v with
  | Empty => Throw TypeMismatch
  | Holds T' p => if decide (T' = T) then OK p else Throw TypeMismatch
  end.

(** Modelled from the spec: [variant_set<T>], "constructs and binds the given
    kind": the payload built from [args], which the slot holds under the tag
    of [T] from then on; a slot bound to another kind is not reinterpreted.
    The new payload starts with [self = 0]. *)
Definition variant_set (T : Kind) (v : Variant) (args : Body) : result IVariant :=
  let var := {| self := 0; body := args |} in
  match v with
  | Empty => OK var
  | Holds T' _ => if decide (T' = T) then OK var else Throw TypeMismatch
  end.

(** Modelled from the spec: [Meta] of [spirv_common.hpp], limited to what the
    ID-level name and decoration queries read: the name ("empty means no
    declared name"), the 64-bit decoration bitmask and the per-decoration
    argument values. *)
Record Meta : Type := mkMeta {
  alias : string;
  decoration_flags : N;
  decoration_args : gmap N N
}.

Definition Meta_default : Meta :=
  {| alias := ""; decoration_flags := 0; decoration_args := ∅ |}.

(** The data members of [class Compiler] that the inline members and the
    ID-level queries work on. *)
Record Compiler : Type := mkCompiler {
  spirv : list N;
  inst : list Instruction.t;
  ids : list Variant;
  meta : list Meta;
  loop_blocks : gset N;
  continue_blocks : gset N;
  loop_merge_targets : gset N;
  selection_merge_targets : gset N;
  multiselect_merge_targets : gset N
}.

Definition with_ids (c : Compiler) (ids' : list Variant) : Compiler :=
  {| spirv := spirv c; inst := inst c; ids := ids'; meta := meta c;
     loop_blocks := loop_blocks c; continue_blocks := continue_blocks c;
     loop_merge_targets := loop_merge_targets c;
     selection_merge_targets := selection_merge_targets c;
     multiselect_merge_targets := multiselect_merge_targets c |}.

Definition with_meta (c : Compiler) (meta' : list Meta) : Compiler :=
  {| spirv := spirv c; inst := inst c; ids := ids c; meta := meta';
     loop_blocks := loop_blocks c; continue_blocks := continue_blocks c;
     loop_merge_targets := loop_merge_targets c;
     selection_merge_targets := selection_merge_targets c;
     multiselect_merge_targets := multiselect_merge_targets c |}.

(** ** The word stream reader *)

(** A [const uint32_t *] into [spirv] is the index it points at; [None] is
    [nullptr]. *)
Definition stream (c : Compiler) (instr : Instruction.t) : result (option N) :=
  if decide (Instruction.length instr = 0) then OK None
  else if decide (vector_size (spirv c) <
                  uint32_wrap (Instruction.offset instr + Instruction.length instr))
  then Throw (CompilerError "Compiler::stream() out of range.")
  else OK (Some (Instruction.offset instr)).

(** The [n] words a pointer [p] into [spirv] gives access to. *)
Definition words_at (c : Compiler) (p n : N) : list N :=
  take (N.to_nat n) (drop (N.to_nat p) (spirv c)).

(** ** The ID table *)

(** [set] returns a reference to the payload it has bound; the reference is
    modelled by the payload as it stands in the table once [self] has been
    written through it.  An exception leaves the compiler as it was. *)
Definition set (T : Kind) (id : N) (args : Body) (c : Compiler)
  : result IVariant * Compiler :=
  match vector_at (ids c) id with
  | Throw e => (Throw e, c)
  | OK slot =>
      match variant_set T slot args with
      | Throw e => (Throw e, c)
      | OK var =>
          let var := with_self id var in
          (OK var, with_ids c (<[N.to_nat id := Holds T var]> (ids c)))
      end
  end.

Definition get (T : Kind) (id : N) (c : Compiler) : result IVariant :=
  slot ← vector_at (ids c) id; variant_get T slot.

Definition maybe_get (T : Kind) (id : N) (c : Compiler)
  : result (option IVariant) :=
  slot ← vector_at (ids c) id;
  if decide (get_type slot = type_of T)
  then p ← get T id c; mret (Some p)
  else mret None.

(** ** Branch-target classification *)

Definition is_continue (c : Compiler) (next : N) : bool :=
  bool_decide (next ∈ continue_blocks c).

Definition is_break (c : Compiler) (next : N) : bool :=
  bool_decide (next ∈ loop_merge_targets c)
  || bool_decide (next ∈ multiselect_merge_targets c).

Definition is_conditional (c : Compiler) (next : N) : bool :=
  bool_decide (next ∈ selection_merge_targets c)
  && bool_decide (next ∉ multiselect_merge_targets c).

(** ** Names and decorations

    The bodies of the ID-level metadata queries live in [spirv_cross.cpp];
    the header declares and documents them. *)

(** [auto &m = meta.at(id); m = f(m);] *)
Definition update_meta (id : N) (f : Meta → Meta) (c : Compiler)
  : result () * Compiler :=
  match vector_at (meta c) id with
  | Throw e => (Throw e, c)
  | OK m => (OK (), with_meta c (<[N.to_nat id := f m]> (meta c)))
  end.

(** Modelled from the spec: [get_name], "gets the identifier (OpName) of an
    ID; if not defined, an empty string will be returned". *)
Definition get_name (id : N) (c : Compiler) : result string :=
  m ← vector_at (meta c) id; mret (alias m).

(** Modelled from the spec: [set_name], "overrides the identifier OpName of
    an ID". *)
Definition set_name (id : N) (name : string) (c : Compiler)
  : result () * Compiler :=
  update_meta id (λ m, {| alias := name;
                          decoration_flags := decoration_flags m;
                          decoration_args := decoration_args m |}) c.

(** [1ull << decoration], a 64-bit quantity. *)
Definition decoration_bit (decoration : N) : N :=
  N.shiftl 1 decoration mod 2 ^ 64.

(** Modelled from the spec: [set_decoration], "applies a decoration to an
    ID": the mask bit is set and the argument recorded. *)
Definition set_decoration (id decoration argument : N) (c : Compiler)
  : result () * Compiler :=
  update_meta id (λ m,
    {| alias := alias m;
       decoration_flags := N.lor (decoration_flags m) (decoration_bit decoration);
       decoration_args := <[decoration := argument]> (decoration_args m) |}) c.

(** Modelled from the spec: [get_decoration_mask], "a bitmask for the
    decorations which are applied to ID". *)
Definition get_decoration_mask (id : N) (c : Compiler) : result N :=
  m ← vector_at (meta c) id; mret (decoration_flags m).

(** Modelled from the spec: [get_decoration], "the value for decorations
    which take arguments; if decoration doesn't exist or decoration is not
    recognized, 0 will be returned".  Which decorations the body in
    [spirv_cross.cpp] recognizes is not in the header: [recognized] is that
    table.  An argument recorded for a decoration outside the table is never
    read. *)
Definition get_decoration (recognized : N → bool) (id decoration : N)
  (c : Compiler) : result N :=
  m ← vector_at (meta c) id;
  if decide (N.land (decoration_flags m) (decoration_bit decoration) = 0)
  then mret 0
  else if recognized decoration
       then mret (default 0 (decoration_args m !! decoration))
       else mret 0.

(** Modelled from the spec: [unset_decoration], "removes the decoration for
    an ID": [flags &= ~(1ull << decoration)] and the argument is dropped. *)
Definition unset_decoration (id decoration : N) (c : Compiler)
  : result () * Compiler :=
  update_meta id (λ m,
    {| alias := alias m;
       decoration_flags := N.ldiff (decoration_flags m) (decoration_bit decoration);
       decoration_args := delete decoration (decoration_args m) |}) c.

(** Modelled from the spec: [join] of [spirv_common.hpp] at the two
    arguments the header gives it, a prefix and an ID, "a fixed prefix plus
    the numeric ID" in decimal. *)
Definition join (prefix : string) (id : N) : string :=
  prefix +:+ NilEmpty.string_of_uint (N.to_uint id).

(** The base-class body of the virtual [get_fallback_name]. *)
Definition get_fallback_name (c : Compiler) (id : N) : string :=
  join "_" id.

(** The base-class body of the virtual [get_fallback_member_name]. *)
Definition get_fallback_member_name (c : Compiler) (index : N) : string :=
  join "_" index.

(** Modelled from the spec: [increase_bound_by], "growing the ID table also
    grows the parallel Meta table"; returns the old bound. *)
Definition increase_bound_by (incr_amount : N) (c : Compiler) : N * Compiler :=
  (vector_size (ids c),
   with_meta
     (with_ids c (ids c ++ replicate (N.to_nat incr_amount) Empty))
     (meta c ++ replicate (N.to_nat incr_amount) Meta_default)).

(** ** Histories of a compiler

    The mutations a caller can apply once the tables exist.  A call that
    throws is local to the call: the compiler is as before and the caller
    goes on. *)
Inductive Mutation : Type :=
  | DoSet (T : Kind) (id : N) (args : Body)
  | DoSetName (id : N) (name : string)
  | DoSetDecoration (id decoration argument : N)
  | DoUnsetDecoration (id decoration : N)
  | DoIncreaseBound (incr_amount : N).

Definition mutate (c : Compiler) (m : Mutation) : Compiler :=
  match m with
  | DoSet T id args => (set T id args c).2
  | DoSetName id name => (set_name id name c).2
  | DoSetDecoration id d a => (set_decoration id d a c).2
  | DoUnsetDecoration id d => (unset_decoration id d c).2
  | DoIncreaseBound n => (increase_bound_by n c).2
  end.

Definition run (c : Compiler) (history : list Mutation) : Compiler :=
  foldl mutate c history.

(** Modelled from the spec: the tables of a module of the given bound before
    anything is bound, named or decorated: every slot empty, every [Meta]
    default-constructed. *)
Definition blank (words : list N) (bound : N) : Compiler :=
  {| spirv := words; inst := [];
     ids := replicate (N.to_nat bound) Empty;
     meta := replicate (N.to_nat bound) Meta_default;
     loop_blocks := ∅; continue_blocks := ∅; loop_merge_targets := ∅;
     selection_merge_targets := ∅; multiselect_merge_targets := ∅ |}.

(** The name at [id] is empty, if the Meta table reaches that far. *)
Definition unnamed (id : N) (c : Compiler) : Prop :=
  ∀ m, meta c !! N.to_nat id = Some m → alias m = "".

(** Every payload in the table carries the ID of its slot. *)
Definition self_stamped (c : Compiler) : Prop :=
  ∀ (i : nat) T p, ids c !! i = Some (Holds T p) → self p = N.of_nat i.

(** The history never binds [id]. *)
Definition never_bound (id : N) (history : list Mutation) : Prop :=
  ∀ T args, DoSet T id args ∉ history.

(** The history never names [id]. *)
Definition never_named (id : N) (history : list Mutation) : Prop :=
  ∀ name, DoSetName id name ∉ history.

End Store.

Arguments IVariant : clear implicits.
Arguments Variant : clear implicits.
Arguments Compiler : clear implicits.
Arguments Mutation : clear implicits.

(** ** Sample compilers *)

(** A module in which block 7 is the merge block of a switch and has also
    been recorded as a selection merge. *)
Definition switch_module : Compiler () :=
  {| spirv := []; inst := []; ids := []; meta := [];
     loop_blocks := ∅; continue_blocks := ∅; loop_merge_targets := {[3]};
     selection_merge_targets := {[7; 11]};
     multiselect_merge_targets := {[7]} |}.

(** A function with two loops: the loop headed by block 1 continues at
    block 5, the loop headed by block 6 continues at block 9. *)
Definition two_loops : Compiler () :=
  {| spirv := []; inst := []; ids := []; meta := [];
     loop_blocks := {[1; 6]}; continue_blocks := {[5; 9]};
     loop_merge_targets := {[4; 10]};
     selection_merge_targets := ∅; multiselect_merge_targets := ∅ |}.

(** A buffer of five words with a table of bound 3: ID 0 is not bound,
    ID 1 is a type and ID 2 a variable. *)
Definition small_module : Compiler N :=
  {| spirv := [119734787; 65536; 0; 3; 0]; inst := [];
     ids := [Empty; Holds SPIRType {| self := 1; body := 32 |};
             Holds SPIRVariable {| self := 2; body := 1 |}];
     meta := replicate 3 Meta_default;
     loop_blocks := ∅; continue_blocks := ∅; loop_merge_targets := ∅;
     selection_merge_targets := ∅; multiselect_merge_targets := ∅ |}.

(** Three operand words starting at word 1: inside the buffer. *)
Definition inside_instruction : Instruction.t :=
  {| Instruction.op := 17; Instruction.offset := 1; Instruction.length := 3 |}.

(** Four operand words starting at word 3: two words past the end. *)
Definition truncated_instruction : Instruction.t :=
  {| Instruction.op := 17; Instruction.offset := 3; Instruction.length := 4 |}.

(** No operand words, at an offset past the end of the buffer. *)
Definition bare_instruction : Instruction.t :=
  {| Instruction.op := 253; Instruction.offset := 9; Instruction.length := 0 |}.

(** A table of recognized decorations for the examples, in SPIR-V's
    numbering: Location (30), Binding (33), DescriptorSet (34) and Offset (35)
    take an argument and are recognized; Block (2), which takes none, is
    not. *)
Definition numbered_decorations (decoration : N) : bool :=
  bool_decide (decoration ∈ [30; 33; 34; 35]).

(** A caller's session on a module of bound 4: ID 1 gets a name, ID 2 a
    type and a decoration, and the tables grow by two IDs. *)
Definition session : list (Mutation N) :=
  [DoSetName 1 "color"; DoSet SPIRType 2 32; DoSetDecoration 2 30 5;
   DoIncreaseBound 2; DoSetDecoration 5 33 1; DoUnsetDecoration 2 30].

(** ** The classifiers *)

Section Classifier.
Context {Body : Type}.
Implicit Types (c : Compiler Body) (next id : N).

Lemma is_continue_true c next :
  is_continue c next = true ↔ next ∈ continue_blocks c.
Proof. unfold is_continue. apply bool_decide_eq_true. Qed.

Lemma is_break_true c next :
  is_break c next = true ↔
  next ∈ loop_merge_targets c ∨ next ∈ multiselect_merge_targets c.
Proof.
  unfold is_break. rewrite orb_true_iff, !bool_decide_eq_true. reflexivity.
Qed.

Lemma is_conditional_true c next :
  is_conditional c next = true ↔
  next ∈ selection_merge_targets c ∧ next ∉ multiselect_merge_targets c.
Proof.
  unfold is_conditional. rewrite andb_true_iff, !bool_decide_eq_true.
  reflexivity.
Qed.

(** C1: a block that is both a switch merge target and a selection merge
    target is not classified as a conditional join and is classified as a
    break. *)
Theorem switch_merge_breaks c id :
  id ∈ multiselect_merge_targets c →
  id ∈ selection_merge_targets c →
  is_conditional c id = false ∧ is_break c id = true.
Proof.
  intros Hswitch _. split.
  - apply not_true_iff_false. rewrite is_conditional_true. tauto.
  - apply is_break_true. by right.
Qed.

(** C2, as the code has it: [is_continue] holds of exactly the members of
    [continue_blocks], the continue targets of all loops recorded so far,
    whichever loop the branch is in. *)
Theorem is_continue_any_loop c id :
  is_continue c id = true ↔ id ∈ continue_blocks c.
Proof. apply is_continue_true. Qed.

End Classifier.

Lemma switch_merge_breaks_witness :
  is_conditional switch_module 7 = false ∧ is_break switch_module 7 = true.
Proof.
  apply (switch_merge_breaks switch_module 7); cbn; set_solver.
Defined.

(** C2 fails as stated: inside the loop that continues at block 5,
    [is_continue] also accepts block 9, the continue target of the other
    loop, so it does not single out the enclosing loop's target. *)
Lemma is_continue_other_loop :
  ¬ (∀ id, is_continue two_loops id = true ↔ id = 5).
Proof.
  intros H. assert (Hne : (9 : N) = 5); [|discriminate Hne].
  apply H. apply is_continue_true. cbn. set_solver.
Qed.

(** ** The word stream reader *)

Section Stream.
Context {Body : Type}.
Implicit Types (c : Compiler Body) (instr : Instruction.t).

Lemma words_at_length c p n :
  p + n ≤ vector_size (spirv c) → vector_size (words_at c p n) = n.
Proof.
  unfold words_at, vector_size. intros H.
  rewrite length_take, length_drop. lia.
Qed.

(** C10: an instruction without operand words resolves to [nullptr],
    wherever its offset lies; the bounds check is not reached. *)
Theorem stream_no_operands c instr :
  Instruction.length instr = 0 → stream c instr = OK None.
Proof. intros H. unfold stream. by rewrite decide_True. Qed.

(** C4, as the code has it: for an instruction with operand words whose
    offset plus length fits 32 bits, [stream] throws its bounds error
    exactly when offset plus length exceeds the size of the buffer, and
    otherwise points at the offset, where all the operand words lie inside
    the buffer. *)
Theorem stream_with_operands c instr :
  Instruction.length instr ≠ 0 →
  Instruction.offset instr + Instruction.length instr < 2 ^ 32 →
  (vector_size (spirv c) < Instruction.offset instr + Instruction.length instr →
   stream c instr = Throw (CompilerError "Compiler::stream() out of range."))
  ∧ (Instruction.offset instr + Instruction.length instr ≤ vector_size (spirv c) →
     stream c instr = OK (Some (Instruction.offset instr))
     ∧ vector_size (words_at c (Instruction.offset instr) (Instruction.length instr))
       = Instruction.length instr).
Proof.
  intros Hlen Hfit. unfold stream, uint32_wrap.
  rewrite decide_False by done. rewrite N.mod_small by done. split.
  - intros Hout. by rewrite decide_True.
  - intros Hin. rewrite decide_False by lia.
    split; [done|]. by apply words_at_length.
Qed.

End Stream.

Lemma stream_no_operands_witness :
  vector_size (spirv small_module) < Instruction.offset bare_instruction
  ∧ stream small_module bare_instruction = OK None.
Proof.
  split; [by vm_compute|].
  apply (stream_no_operands small_module bare_instruction). reflexivity.
Defined.

Lemma stream_with_operands_witness :
  stream small_module truncated_instruction
    = Throw (CompilerError "Compiler::stream() out of range.")
  ∧ stream small_module inside_instruction = OK (Some 1)
  ∧ words_at small_module 1 3 = [65536; 0; 3].
Proof.
  split; [|split].
  - apply (stream_with_operands small_module truncated_instruction);
      by vm_compute.
  - apply (stream_with_operands small_module inside_instruction);
      by vm_compute.
  - reflexivity.
Defined.

(** C4 fails as stated: offset plus length (9) exceeds the five words of the
    buffer, yet [stream] raises no bounds error. *)
Lemma bare_instruction_not_rejected :
  ¬ (vector_size (spirv small_module)
       < Instruction.offset bare_instruction + Instruction.length bare_instruction →
     throws (stream small_module bare_instruction)).
Proof.
  intros H. destruct H as [e He]; [by vm_compute|]. discriminate He.
Qed.

(** ** The ID table *)

Section IdTable.
Context {Body : Type}.
Implicit Types (c : Compiler Body) (id : N) (T : Kind) (args : Body)
  (slot : Variant Body) (p var : IVariant Body) (history : list (Mutation Body)).

Lemma type_of_inj T T' : type_of T = type_of T' → T = T'.
Proof. by destruct T, T'. Qed.

Lemma type_of_not_none T : type_of T ≠ TypeNone.
Proof. by destruct T. Qed.

Lemma vector_at_lookup {A} (v : list A) (i : N) (x : A) :
  vector_at v i = OK x ↔ v !! N.to_nat i = Some x.
Proof.
  unfold vector_at. destruct (v !! N.to_nat i); split; congruence.
Qed.

Lemma vector_at_beyond {A} (v : list A) (i : N) :
  vector_at v i = Throw out_of_range ↔ vector_size v ≤ i.
Proof.
  unfold vector_at, vector_size. destruct (v !! N.to_nat i) eqn:E.
  - apply lookup_lt_Some in E. split; [discriminate | lia].
  - apply lookup_ge_None in E. split; [lia | done].
Qed.

Lemma vector_at_below {A} (v : list A) (i : N) :
  i < vector_size v → ∃ x, vector_at v i = OK x.
Proof.
  unfold vector_at, vector_size. intros H.
  destruct (lookup_lt_is_Some_2 v (N.to_nat i)) as [x ->]; [lia | eauto].
Qed.

(** [get] on a slot of the table. *)
Lemma get_slot c id T slot :
  ids c !! N.to_nat id = Some slot → get T id c = variant_get T slot.
Proof. intros H. unfold get. apply vector_at_lookup in H. by rewrite H. Qed.

(** [maybe_get] on a slot of the table. *)
Lemma maybe_get_slot c id T slot :
  ids c !! N.to_nat id = Some slot →
  maybe_get T id c =
    match slot with
    | Empty => OK None
    | Holds T' p => if decide (T' = T) then OK (Some p) else OK None
    end.
Proof.
  intros H. unfold maybe_get. rewrite (get_slot _ _ _ _ H).
  apply vector_at_lookup in H. rewrite H. cbn.
  destruct slot as [|T' p]; cbn.
  - rewrite decide_False; [done | apply not_eq_sym, type_of_not_none].
  - destruct (decide (T' = T)) as [->|Hne].
    + by rewrite decide_True.
    + rewrite decide_False; [done | by intros ?%type_of_inj].
Qed.

(** No mutation shrinks the table, and only [DoSet] at [id] writes slot
    [id]. *)
Lemma set_ids c T id args :
  ids (set T id args c).2 = ids c ∨
  ∃ var, ids (set T id args c).2 = <[N.to_nat id := Holds T var]> (ids c).
Proof.
  unfold set. destruct (vector_at (ids c) id); [|by left].
  destruct (variant_set T a args); [|by left]. right. eauto.
Qed.

Lemma update_meta_ids c id f : ids (update_meta id f c).2 = ids c.
Proof. unfold update_meta. by destruct (vector_at (meta c) id). Qed.

Lemma mutate_keeps_empty c id m :
  (∀ T args, m ≠ DoSet T id args) →
  (∀ slot, ids c !! N.to_nat id = Some slot → slot = Empty) →
  ∀ slot, ids (mutate c m) !! N.to_nat id = Some slot → slot = Empty.
Proof.
  intros Hm Hc slot. destruct m as [T id' args|id' name|id' d a|id' d|n]; cbn.
  - destruct (set_ids c T id' args) as [->|[var ->]]; [apply Hc|].
    rewrite list_lookup_insert_ne; [apply Hc|].
    intros Heq%N2Nat.inj. subst id'. by eapply Hm.
  - unfold set_name. rewrite update_meta_ids. apply Hc.
  - unfold set_decoration. rewrite update_meta_ids. apply Hc.
  - unfold unset_decoration. rewrite update_meta_ids. apply Hc.
  - intros [H|[_ H]]%lookup_app_Some; [by apply Hc|].
    by apply lookup_replicate in H as [-> _].
Qed.

Lemma run_keeps_empty history c id :
  never_bound id history →
  (∀ slot, ids c !! N.to_nat id = Some slot → slot = Empty) →
  ∀ slot, ids (run c history) !! N.to_nat id = Some slot → slot = Empty.
Proof.
  revert c. induction history as [|m history IH]; intros c Hnever Hc; [done|].
  cbn. apply IH.
  - intros T args Hin. apply (Hnever T args). by right.
  - apply mutate_keeps_empty; [|done].
    intros T args ->. apply (Hnever T args). by left.
Qed.

Lemma blank_empty words bound id slot :
  ids (blank (Body := Body) words bound) !! N.to_nat id = Some slot → slot = Empty.
Proof. cbn. by intros [-> _]%lookup_replicate. Qed.

(** C3, as the code has it: below the bound [maybe_get] returns an optional
    and does not throw, and for an ID that no [set] ever bound it returns
    absent; at or beyond the bound it throws [std::out_of_range]. *)
Theorem maybe_get_within_bound c id T :
  (id < vector_size (ids c) → succeeds (maybe_get T id c))
  ∧ (∀ words bound history,
       c = run (blank words bound) history → never_bound id history →
       id < vector_size (ids c) → maybe_get T id c = OK None)
  ∧ (vector_size (ids c) ≤ id → maybe_get T id c = Throw out_of_range).
Proof.
  split; [|split].
  - intros [slot Hslot]%vector_at_below. apply vector_at_lookup in Hslot.
    rewrite (maybe_get_slot _ _ _ _ Hslot). unfold succeeds.
    destruct slot; [eauto|]. case_decide; eauto.
  - intros words bound history -> Hnever [slot Hslot]%vector_at_below.
    apply vector_at_lookup in Hslot.
    rewrite (maybe_get_slot _ _ _ _ Hslot).
    assert (slot = Empty) as ->; [|done].
    eapply run_keeps_empty; [done | apply blank_empty | done].
  - intros Hge%vector_at_beyond. unfold maybe_get. by rewrite Hge.
Qed.

(** C5: when [set] binds a payload of kind [T] to [id], a following [get] at
    that kind and ID returns the payload [set] returned, and its [self] is
    [id]. *)
Theorem get_after_set c c' id T args var :
  set T id args c = (OK var, c') →
  get T id c' = OK var ∧ self var = id.
Proof.
  unfold set. destruct (vector_at (ids c) id) as [slot|e] eqn:Hat; [|done].
  destruct (variant_set T slot args) as [var0|e]; [|done].
  intros [= <- <-]. split; [|done].
  apply vector_at_lookup, lookup_lt_Some in Hat.
  erewrite get_slot; [|cbn; by apply list_lookup_insert_eq].
  cbn. by rewrite decide_True.
Qed.

(** [set] binds whenever the ID is below the bound and its slot is empty or
    already of the kind. *)
Lemma set_succeeds c id T args slot :
  ids c !! N.to_nat id = Some slot →
  get_type slot = TypeNone ∨ get_type slot = type_of T →
  ∃ var c', set T id args c = (OK var, c').
Proof.
  intros Hslot%vector_at_lookup Hty. unfold set. rewrite Hslot.
  destruct slot as [|T' p]; cbn; [eauto|].
  destruct Hty as [Hty|Hty%type_of_inj].
  - by apply type_of_not_none in Hty.
  - subst T'. rewrite decide_True by done. eauto.
Qed.

(** C6: [set] at an ID at or beyond the size of the ID table throws
    [std::out_of_range] and leaves the compiler, hence the size of the
    table, as it was. *)
Theorem set_beyond_bound c id T args :
  vector_size (ids c) ≤ id →
  set T id args c = (Throw out_of_range, c)
  ∧ vector_size (ids (set T id args c).2) = vector_size (ids c).
Proof.
  intros Hge%vector_at_beyond. unfold set. by rewrite Hge.
Qed.

(** C7: for an ID whose slot is empty or holds another kind than [T],
    [get] throws instead of returning a payload and [maybe_get] returns
    absent. *)
Theorem get_wrong_kind c id T slot :
  ids c !! N.to_nat id = Some slot →
  get_type slot ≠ type_of T →
  get T id c = Throw TypeMismatch ∧ maybe_get T id c = OK None.
Proof.
  intros Hslot Hty.
  rewrite (get_slot _ _ _ _ Hslot), (maybe_get_slot _ _ _ _ Hslot).
  destruct slot as [|T' p]; cbn in *; [done|].
  by destruct (decide (T' = T)) as [->|_].
Qed.

End IdTable.

Lemma maybe_get_within_bound_witness :
  succeeds (maybe_get SPIRType 1 small_module)
  ∧ maybe_get SPIRVariable 0
      (run (blank [] 2) [DoSet SPIRType 1 (32 : N); DoSetName 0 "main"])
    = OK None
  ∧ maybe_get SPIRType 3 small_module = Throw out_of_range.
Proof.
  split; [|split].
  - apply (maybe_get_within_bound small_module 1 SPIRType). by vm_compute.
  - eapply (maybe_get_within_bound
              (run (blank [] 2) [DoSet SPIRType 1 (32 : N); DoSetName 0 "main"])
              0 SPIRVariable).
    + reflexivity.
    + intros T args Hin. by repeat (apply elem_of_cons in Hin as [?|Hin]);
        try apply elem_of_nil in Hin.
    + by vm_compute.
  - apply (maybe_get_within_bound small_module 3 SPIRType). by vm_compute.
Defined.

(** C3 fails as stated: ID 3 is at the bound of the three-slot table, and
    [maybe_get] throws instead of returning an optional. *)
Lemma maybe_get_at_bound_throws :
  vector_size (ids small_module) ≤ 3
  ∧ ¬ succeeds (maybe_get SPIRType 3 small_module).
Proof.
  split; [by vm_compute|]. intros [r Hr]. discriminate Hr.
Qed.

Lemma get_after_set_witness :
  ∃ var c', set SPIRConstant 3 (7 : N) (blank [] 4) = (OK var, c')
            ∧ get SPIRConstant 3 c' = OK var ∧ self var = 3.
Proof.
  eexists _, _. split; [reflexivity|].
  by apply (get_after_set (blank [] 4) _ 3 SPIRConstant 7).
Defined.

Lemma set_beyond_bound_witness :
  set SPIRBlock 3 (0 : N) small_module = (Throw out_of_range, small_module)
  ∧ vector_size (ids (set SPIRBlock 3 (0 : N) small_module).2) = 3.
Proof.
  apply (set_beyond_bound small_module 3 SPIRBlock 0). by vm_compute.
Defined.

Lemma get_wrong_kind_witness :
  (get SPIRVariable 1 small_module = Throw TypeMismatch
   ∧ maybe_get SPIRVariable 1 small_module = OK None)
  ∧ (get SPIRVariable 0 small_module = Throw TypeMismatch
     ∧ maybe_get SPIRVariable 0 small_module = OK None).
Proof.
  split.
  - apply (get_wrong_kind small_module 1 SPIRVariable
             (Holds SPIRType {| self := 1; body := 32 |})); by vm_compute.
  - apply (get_wrong_kind small_module 0 SPIRVariable Empty); by vm_compute.
Defined.

(** ** Names *)

Section Names.
Context {Body : Type}.
Implicit Types (c : Compiler Body) (id : N) (m : Meta)
  (history : list (Mutation Body)).

Lemma update_meta_lookup c id f i :
  meta (update_meta id f c).2 !! i =
    if decide (i = N.to_nat id) then f <$> meta c !! i else meta c !! i.
Proof.
  unfold update_meta, vector_at.
  destruct (meta c !! N.to_nat id) as [m|] eqn:E; cbn [snd meta with_meta].
  - rewrite list_lookup_insert. case_decide as Hi.
    + destruct Hi as [<- _]. rewrite decide_True by done. by rewrite E.
    + case_decide as Hj; [|done]. subst i.
      apply lookup_lt_Some in E. tauto.
  - case_decide; [|done]. subst i. by rewrite E.
Qed.

Lemma set_meta c T id (args : Body) : meta (set T id args c).2 = meta c.
Proof.
  unfold set. destruct (vector_at (ids c) id) as [slot|]; [|done].
  by destruct (variant_set T slot args).
Qed.

Lemma update_meta_unnamed c id id' f :
  (∀ m, alias m = "" → alias (f m) = "") →
  unnamed id c → unnamed id (update_meta id' f c).2.
Proof.
  intros Hf Hc m. rewrite update_meta_lookup. case_decide; [|apply Hc].
  destruct (meta c !! N.to_nat id) as [m0|] eqn:E; [|done].
  intros [= <-]. by apply Hf, Hc.
Qed.

Lemma mutate_unnamed c id mu :
  (∀ name, mu ≠ DoSetName id name) → unnamed id c → unnamed id (mutate c mu).
Proof.
  intros Hmu Hc. destruct mu as [T id' args|id' name|id' d a|id' d|n]; cbn.
  - unfold unnamed. by rewrite set_meta.
  - intros m. unfold set_name. rewrite update_meta_lookup.
    case_decide as Hid; [|apply Hc].
    apply N2Nat.inj in Hid. subst id'. by destruct (Hmu name).
  - by apply update_meta_unnamed.
  - by apply update_meta_unnamed.
  - intros m [H|[_ H]]%lookup_app_Some; [by apply Hc|].
    by apply lookup_replicate in H as [-> _].
Qed.

Lemma run_unnamed history c id :
  never_named id history → unnamed id c → unnamed id (run c history).
Proof.
  revert c. induction history as [|mu history IH]; intros c Hnever Hc; [done|].
  cbn. apply IH.
  - intros name Hin. apply (Hnever name). by right.
  - apply mutate_unnamed; [|done].
    intros name ->. apply (Hnever name). by left.
Qed.

Lemma blank_unnamed words bound id : unnamed id (blank (Body := Body) words bound).
Proof. intros m. cbn. by intros [-> _]%lookup_replicate. Qed.

Lemma join_not_empty prefix id : prefix ≠ "" → join prefix id ≠ "".
Proof. unfold join. by destruct prefix. Qed.

(** Distinct IDs get distinct fallback names. *)
Lemma get_fallback_name_inj c c' id id' :
  get_fallback_name c id = get_fallback_name c' id' → id = id'.
Proof.
  unfold get_fallback_name, join. intros H.
  apply (f_equal (λ s, match s with String _ s' => s' | EmptyString => s end))
    in H. cbv beta iota delta [String.append] in H.
  apply (f_equal NilEmpty.uint_of_string) in H.
  rewrite !NilEmpty.usu in H. injection H as H.
  apply (f_equal N.of_uint) in H. by rewrite !DecimalN.Unsigned.of_to in H.
Qed.

(** C8: for an ID of the module that no [set_name] ever named, [get_name]
    returns the empty string, and [get_fallback_name] returns a string that
    is not empty and is the same whatever the compiler's state: an underscore
    followed by the ID in decimal. *)
Theorem unnamed_id_names c id words bound history :
  c = run (blank words bound) history →
  never_named id history →
  id < vector_size (meta c) →
  get_name id c = OK ""
  ∧ get_fallback_name c id ≠ ""
  ∧ (∀ c' : Compiler Body, get_fallback_name c' id = get_fallback_name c id).
Proof.
  intros -> Hnever [m Hm]%vector_at_below. split; [|split].
  - unfold get_name. rewrite Hm. cbn. f_equal.
    apply vector_at_lookup in Hm.
    by eapply run_unnamed; [done | apply blank_unnamed | done].
  - by apply join_not_empty.
  - done.
Qed.

End Names.

Lemma unnamed_id_names_witness :
  get_name 3 (run (blank [] 4) session) = OK ""
  ∧ get_fallback_name (run (blank [] 4) session) 3 = "_3"
  ∧ get_name 1 (run (blank [] 4) session) = OK "color".
Proof.
  destruct (unnamed_id_names (run (blank [] 4) session) 3 [] 4 session)
    as (Hname & _ & _).
  - reflexivity.
  - intros name Hin. by repeat (apply elem_of_cons in Hin as [?|Hin]);
      try apply elem_of_nil in Hin.
  - by vm_compute.
  - split; [exact Hname | split; reflexivity].
Defined.

(** ** Decorations *)

Section Decorations.
Context {Body : Type}.
Implicit Types (c : Compiler Body) (id decoration argument flags : N) (m : Meta).

Lemma update_meta_at c id f m :
  meta c !! N.to_nat id = Some m →
  ∃ c', update_meta id f c = (OK (), c')
        ∧ meta c' !! N.to_nat id = Some (f m).
Proof.
  intros H. eexists. split.
  - unfold update_meta. apply vector_at_lookup in H as ->. reflexivity.
  - cbn [meta with_meta]. apply list_lookup_insert_eq. by eapply lookup_lt_Some.
Qed.

Lemma get_decoration_at recognized c id decoration m :
  meta c !! N.to_nat id = Some m →
  get_decoration recognized id decoration c =
    OK (if decide (N.land (decoration_flags m) (decoration_bit decoration) = 0)
        then 0
        else if recognized decoration
             then default 0 (decoration_args m !! decoration)
             else 0).
Proof.
  intros H%vector_at_lookup. unfold get_decoration. rewrite H. cbn.
  case_decide; [done|]. by destruct (recognized decoration).
Qed.

Lemma get_decoration_mask_at c id m :
  meta c !! N.to_nat id = Some m →
  get_decoration_mask id c = OK (decoration_flags m).
Proof. intros H%vector_at_lookup. unfold get_decoration_mask. by rewrite H. Qed.

Lemma decoration_bit_pow2 decoration :
  decoration < 64 → decoration_bit decoration = 2 ^ decoration.
Proof.
  intros H. unfold decoration_bit. rewrite N.shiftl_1_l.
  apply N.mod_small, N.pow_lt_mono_r; lia.
Qed.

Lemma flag_raised flags decoration :
  N.testbit (N.lor flags (2 ^ decoration)) decoration = true.
Proof. by rewrite N.lor_spec, N.pow2_bits_true, orb_true_r. Qed.

Lemma flag_raised_seen flags decoration :
  N.land (N.lor flags (2 ^ decoration)) (2 ^ decoration) ≠ 0.
Proof.
  intros H. apply (f_equal (λ x, N.testbit x decoration)) in H.
  rewrite N.land_spec, flag_raised, N.pow2_bits_true, N.bits_0 in H.
  discriminate H.
Qed.

Lemma flag_lowered flags decoration :
  N.testbit (N.ldiff flags (2 ^ decoration)) decoration = false.
Proof. by rewrite N.ldiff_spec, N.pow2_bits_true, andb_false_r. Qed.

Lemma flag_lowered_unseen flags decoration :
  N.land (N.ldiff flags (2 ^ decoration)) (2 ^ decoration) = 0.
Proof.
  apply N.bits_inj. intros n.
  rewrite N.land_spec, N.ldiff_spec, N.bits_0.
  by destruct (N.testbit flags n), (N.testbit (2 ^ decoration) n).
Qed.

(** C9, as the code has it: for an ID below the bound of the Meta table and
    a decoration that has a bit in the 64-bit mask, [set_decoration]
    succeeds, after which [get_decoration] returns the argument if the
    decoration is recognized and 0 if it is not, and the mask has the
    decoration's bit set; [unset_decoration] then succeeds, after which no
    argument is stored, [get_decoration] returns 0 and the bit is clear. *)
Theorem decoration_round_trip recognized c id decoration argument :
  id < vector_size (meta c) →
  decoration < 64 →
  ∃ c1, set_decoration id decoration argument c = (OK (), c1)
    ∧ get_decoration recognized id decoration c1
      = OK (if recognized decoration then argument else 0)
    ∧ (∃ mask, get_decoration_mask id c1 = OK mask
               ∧ N.testbit mask decoration = true)
    ∧ ∃ c2, unset_decoration id decoration c1 = (OK (), c2)
      ∧ (∃ m, meta c2 !! N.to_nat id = Some m
              ∧ decoration_args m !! decoration = None)
      ∧ get_decoration recognized id decoration c2 = OK 0
      ∧ (∃ mask, get_decoration_mask id c2 = OK mask
                 ∧ N.testbit mask decoration = false).
Proof.
  intros [m Hm%vector_at_lookup]%vector_at_below Hbit.
  unfold set_decoration, unset_decoration.
  rewrite (decoration_bit_pow2 _ Hbit).
  edestruct (update_meta_at c id) as (c1 & -> & Hm1); [done|].
  exists c1. split; [done|]. split; [|split].
  - rewrite (get_decoration_at _ _ _ _ _ Hm1), (decoration_bit_pow2 _ Hbit). cbn.
    rewrite decide_False by apply flag_raised_seen.
    rewrite lookup_insert_eq. by destruct (recognized decoration).
  - rewrite (get_decoration_mask_at _ _ _ Hm1). eexists. split; [done|].
    apply flag_raised.
  - edestruct (update_meta_at c1 id) as (c2 & -> & Hm2); [done|].
    exists c2. split; [done|]. split; [|split].
    + eexists. split; [done|]. cbn. apply lookup_delete_eq.
    + rewrite (get_decoration_at _ _ _ _ _ Hm2), (decoration_bit_pow2 _ Hbit). cbn.
      by rewrite decide_True by apply flag_lowered_unseen.
    + rewrite (get_decoration_mask_at _ _ _ Hm2). eexists. split; [done|].
      apply flag_lowered.
Qed.

End Decorations.

Lemma decoration_round_trip_witness :
  ∃ c1, set_decoration 2 30 5 small_module = (OK (), c1)
    ∧ get_decoration numbered_decorations 2 30 c1 = OK 5
    ∧ get_decoration_mask 2 c1 = OK (2 ^ 30)
    ∧ ∃ c2, unset_decoration 2 30 c1 = (OK (), c2)
      ∧ get_decoration numbered_decorations 2 30 c2 = OK 0
      ∧ get_decoration_mask 2 c2 = OK 0.
Proof.
  destruct (decoration_round_trip numbered_decorations small_module 2 30 5)
    as (c1 & Hset & Hget & _ & c2 & Hunset & _ & Hget0 & _); [by vm_compute..|].
  exists c1. split; [exact Hset|]. split; [exact Hget|].
  injection Hset as <-. split; [reflexivity|].
  exists c2. split; [exact Hunset|]. split; [exact Hget0|].
  injection Hunset as <-. reflexivity.
Defined.

(** C9 fails as stated, in two ways.  Decoration 64 has no bit in the 64-bit
    mask: [set_decoration] succeeds and the mask does not have bit 64 set.
    And where Block (2) is not a recognized decoration, [get_decoration]
    after [set_decoration] with argument 5 returns 0, not 5. *)
Lemma decoration_without_round_trip :
  (∃ c1, set_decoration 2 64 5 small_module = (OK (), c1)
     ∧ ∃ mask, get_decoration_mask 2 c1 = OK mask
               ∧ N.testbit mask 64 = false)
  ∧ (∃ c1, set_decoration 2 2 5 small_module = (OK (), c1)
       ∧ get_decoration numbered_decorations 2 2 c1 = OK 0).
Proof.
  split.
  - eexists. split; [reflexivity|]. eexists. split; reflexivity.
  - eexists. split; reflexivity.
Qed.

(** ** Further properties of the inline members *)

Section Further.
Context {Body : Type}.
Implicit Types (c : Compiler Body) (id next index : N) (T : Kind) (args : Body)
  (slot : Variant Body) (p var : IVariant Body) (instr : Instruction.t).

(** X1: a pointer returned by [stream] is the instruction's offset, the
    instruction has operand words, and (when offset plus length fits 32
    bits) every one of its operand words can be read from the buffer. *)
Theorem stream_pointer_readable c instr (ptr : N) :
  stream c instr = OK (Some ptr) →
  Instruction.offset instr + Instruction.length instr < 2 ^ 32 →
  ptr = Instruction.offset instr
  ∧ Instruction.length instr ≠ 0
  ∧ ∀ k, k < Instruction.length instr →
         is_Some (spirv c !! N.to_nat (ptr + k)).
Proof.
  intros Hs Hfit. unfold stream, uint32_wrap in Hs.
  case_decide as Hzero; [done|].
  rewrite N.mod_small in Hs by done.
  case_decide as Hout; [done|]. injection Hs as <-.
  split; [done|]. split; [done|]. intros k Hk.
  apply lookup_lt_is_Some. unfold vector_size in Hout. lia.
Qed.

(** X2: [stream] returns [nullptr] only for an instruction without operand
    words, so a null result never stands for a failed bounds check; and the
    only exception it raises is its own [CompilerError], only for an
    instruction with operand words. *)
Theorem stream_null_and_error c instr :
  (stream c instr = OK None ↔ Instruction.length instr = 0)
  ∧ (∀ e, stream c instr = Throw e →
          e = CompilerError "Compiler::stream() out of range."
          ∧ Instruction.length instr ≠ 0).
Proof.
  unfold stream. split; [split|].
  - case_decide; [done|]. by case_decide.
  - intros H. by rewrite decide_True.
  - intros e. case_decide; [done|]. case_decide; [|done]. by intros [= <-].
Qed.

Lemma get_not_out_of_range c id T slot :
  ids c !! N.to_nat id = Some slot → get T id c ≠ Throw out_of_range.
Proof.
  intros Hslot. rewrite (get_slot _ _ _ _ Hslot).
  destruct slot as [|T' p]; cbn; [done|]. by case_decide.
Qed.

(** X3: each of [get], [maybe_get] and [set] raises [std::out_of_range]
    exactly when the ID is at or beyond the size of the ID table. *)
Theorem out_of_range_iff_beyond_bound c id T args :
  (get T id c = Throw out_of_range ↔ vector_size (ids c) ≤ id)
  ∧ (maybe_get T id c = Throw out_of_range ↔ vector_size (ids c) ≤ id)
  ∧ ((set T id args c).1 = Throw out_of_range ↔ vector_size (ids c) ≤ id).
Proof.
  rewrite <- (vector_at_beyond (ids c) id). unfold vector_at.
  destruct (ids c !! N.to_nat id) as [slot|] eqn:Hslot.
  - split; [|split]; (split; [|done]); intros H; exfalso.
    + by apply (get_not_out_of_range c id T slot).
    + rewrite (maybe_get_slot _ _ _ _ Hslot) in H.
      destruct slot; [done|]. by case_decide.
    + unfold set in H. apply vector_at_lookup in Hslot. rewrite Hslot in H.
      destruct slot as [|T' p]; cbn in H; [done|]. by case_decide.
  - unfold get, maybe_get, set, vector_at. rewrite Hslot. done.
Qed.

(** X4: when [maybe_get] returns a payload, the slot holds the kind asked
    for and [get] returns the same payload. *)
Theorem maybe_get_sound c id T p :
  maybe_get T id c = OK (Some p) →
  get T id c = OK p
  ∧ ∃ slot, ids c !! N.to_nat id = Some slot ∧ get_type slot = type_of T.
Proof.
  unfold maybe_get. destruct (vector_at (ids c) id) as [slot|e] eqn:Hat; [|done].
  cbn. case_decide as Hty; [|done].
  destruct (get T id c) as [q|e]; [|done]. cbn. intros [= <-].
  split; [done|]. exists slot. by apply vector_at_lookup in Hat.
Qed.

(** X5: [maybe_get] is [get] with the kind error turned into absent:
    it returns the payload [get] returns, passes [std::out_of_range] on, and
    returns absent where [get] fails for any other reason. *)
Theorem maybe_get_from_get c id T :
  maybe_get T id c =
    match get T id c with
    | OK p => OK (Some p)
    | Throw out_of_range => Throw out_of_range
    | Throw _ => OK None
    end.
Proof.
  destruct (ids c !! N.to_nat id) as [slot|] eqn:Hslot.
  - rewrite (maybe_get_slot _ _ _ _ Hslot), (get_slot _ _ _ _ Hslot).
    destruct slot as [|T' q]; cbn; [done|]. by case_decide.
  - unfold maybe_get, get, vector_at. by rewrite Hslot.
Qed.

(** X6: [set] writes nothing but the ID table and keeps its size, whether it
    binds or throws. *)
Theorem set_only_ids c id T args :
  let c' := (set T id args c).2 in
  vector_size (ids c') = vector_size (ids c)
  ∧ spirv c' = spirv c ∧ inst c' = inst c ∧ meta c' = meta c
  ∧ loop_blocks c' = loop_blocks c
  ∧ continue_blocks c' = continue_blocks c
  ∧ loop_merge_targets c' = loop_merge_targets c
  ∧ selection_merge_targets c' = selection_merge_targets c
  ∧ multiselect_merge_targets c' = multiselect_merge_targets c.
Proof.
  unfold set. destruct (vector_at (ids c) id) as [slot|e]; [|done].
  destruct (variant_set T slot args) as [var|e]; [|done].
  cbn. unfold vector_size. by rewrite length_insert.
Qed.

(** X7: [set] at one ID leaves every other ID as it was: [get] and
    [maybe_get] at another ID, at any kind, return after the [set] what they
    returned before. *)
Theorem set_other_id c id id' T T' args :
  id' ≠ id →
  get T' id' (set T id args c).2 = get T' id' c
  ∧ maybe_get T' id' (set T id args c).2 = maybe_get T' id' c.
Proof.
  intros Hne.
  assert (Hids : ids (set T id args c).2 !! N.to_nat id' = ids c !! N.to_nat id').
  { destruct (set_ids c T id args) as [->|[var ->]]; [done|].
    apply list_lookup_insert_ne. by intros Heq%N2Nat.inj. }
  unfold maybe_get, get, vector_at. by rewrite Hids.
Qed.

(** X8: once [set] has bound an ID at kind [T], [maybe_get] at [T] returns
    the payload, and at every other kind [maybe_get] returns absent and
    [get] throws. *)
Theorem set_binds_one_kind c c' id T args var :
  set T id args c = (OK var, c') →
  maybe_get T id c' = OK (Some var)
  ∧ ∀ T', T' ≠ T →
      maybe_get T' id c' = OK None ∧ get T' id c' = Throw TypeMismatch.
Proof.
  unfold set. destruct (vector_at (ids c) id) as [slot|e] eqn:Hat; [|done].
  destruct (variant_set T slot args) as [var0|e]; [|done].
  intros [= <- <-].
  apply vector_at_lookup, lookup_lt_Some in Hat.
  assert (Hslot : ids (with_ids c (<[N.to_nat id := Holds T (with_self id var0)]> (ids c)))
                    !! N.to_nat id = Some (Holds T (with_self id var0))).
  { cbn. by apply list_lookup_insert_eq. }
  split.
  - rewrite (maybe_get_slot _ _ _ _ Hslot). by rewrite decide_True.
  - intros T' Hne.
    rewrite (maybe_get_slot _ _ _ _ Hslot), (get_slot _ _ _ _ Hslot). cbn.
    by rewrite !decide_False by done.
Qed.

Lemma self_stamped_get c id T p :
  self_stamped c → get T id c = OK p → self p = id.
Proof.
  intros Hc. unfold get.
  destruct (vector_at (ids c) id) as [slot|e] eqn:Hat; [|done].
  apply vector_at_lookup in Hat. cbn.
  destruct slot as [|T' q]; cbn; [done|]. case_decide; [|done].
  intros [= <-]. rewrite (Hc _ _ _ Hat). apply N2Nat.id.
Qed.

(** X9: [set] keeps the table self-stamped: if every payload carried the ID
    of its slot before, every payload does after, so that [get] at any ID
    and kind returns a payload whose [self] is that ID. *)
Theorem set_keeps_self_stamped c id T args :
  self_stamped c →
  self_stamped (set T id args c).2
  ∧ ∀ T' id' p, get T' id' (set T id args c).2 = OK p → self p = id'.
Proof.
  intros Hc.
  assert (Hc' : self_stamped (set T id args c).2).
  { unfold set.
    destruct (vector_at (ids c) id) as [slot|e]; [|done].
    destruct (variant_set T slot args) as [var|e]; [|done].
    intros i T' p. cbn. rewrite list_lookup_insert. case_decide as Hi.
    - destruct Hi as [<- _]. intros [= _ <-]. cbn. by rewrite N2Nat.id.
    - apply Hc. }
  split; [done|]. intros T' id' p. by apply self_stamped_get.
Qed.

(** X10: the fallback name of struct member number [index] and the
    fallback name of an ID are the same string exactly when the member
    number equals the ID. *)
Theorem fallback_names_coincide c c' index id :
  get_fallback_member_name c index = get_fallback_name c' id ↔ index = id.
Proof.
  split.
  - apply (get_fallback_name_inj c c').
  - by intros ->.
Qed.

(** X11: a branch target is classified both as a conditional join and as a
    break exactly when it is a selection merge target and a loop merge
    target without being a switch merge target. *)
Theorem conditional_and_break c next :
  is_conditional c next = true ∧ is_break c next = true ↔
  next ∈ selection_merge_targets c
  ∧ next ∈ loop_merge_targets c
  ∧ next ∉ multiselect_merge_targets c.
Proof. rewrite is_conditional_true, is_break_true. tauto. Qed.

End Further.

Lemma stream_pointer_readable_witness :
  1 = Instruction.offset inside_instruction
  ∧ Instruction.length inside_instruction ≠ 0
  ∧ ∀ k, k < Instruction.length inside_instruction →
         is_Some (spirv small_module !! N.to_nat (1 + k)).
Proof.
  apply (stream_pointer_readable small_module inside_instruction 1);
    by vm_compute.
Defined.

Lemma maybe_get_sound_witness :
  get SPIRType 1 small_module = OK {| self := 1; body := 32 |}
  ∧ ∃ slot, ids small_module !! N.to_nat 1 = Some slot
            ∧ get_type slot = type_of SPIRType.
Proof.
  apply (maybe_get_sound small_module 1 SPIRType). reflexivity.
Defined.

Lemma set_other_id_witness :
  get SPIRType 1 (set SPIRConstant 0 (7 : N) small_module).2
    = OK {| self := 1; body := 32 |}
  ∧ maybe_get SPIRType 1 (set SPIRConstant 0 (7 : N) small_module).2
    = OK (Some {| self := 1; body := 32 |}).
Proof.
  apply (set_other_id small_module 0 1 SPIRConstant SPIRType). by vm_compute.
Defined.

Lemma set_binds_one_kind_witness :
  ∃ var c', set SPIRConstant 0 (7 : N) small_module = (OK var, c')
    ∧ maybe_get SPIRConstant 0 c' = OK (Some var)
    ∧ maybe_get SPIRType 0 c' = OK None
    ∧ get SPIRType 0 c' = Throw TypeMismatch.
Proof.
  eexists _, _. split; [reflexivity|].
  destruct (set_binds_one_kind small_module _ 0 SPIRConstant 7 _ eq_refl)
    as [Hsame Hother].
  split; [exact Hsame|]. by apply Hother.
Defined.

Lemma set_keeps_self_stamped_witness :
  self_stamped small_module
  ∧ self_stamped (set SPIRVariable 2 (9 : N) small_module).2.
Proof.
  assert (H : self_stamped small_module).
  { intros [|[|[|i]]] T p; cbn; by intros [= <- <-]. }
  split; [exact H|].
  by apply (set_keeps_self_stamped small_module 2 SPIRVariable 9).
Defined.
